(** * gofi: raw WiFi data-link access -- value types and the MAC packet container

    A shallow embedding of the Go package [gofi] (handle.go and the MAC packet
    file) together with the properties its specification states about it.

    Conventions of the embedding:
    - a Go [int] is a [Z]; no function below does integer arithmetic, so no
      wrap-around is involved, and where the 64-bit range matters it is said;
    - [type ChannelWidth int] and [type DataRate int] are [Z] as well: any
      integer converts to either type in Go;
    - a Go map literal is a [gmap]; indexing a missing key gives the zero value;
    - a Go slice is a slice header (backing array, offset, length, capacity)
      over a store of arrays, and a [*MACPacket] is an address in a store of
      structs, so that what a function shares and what it changes can be said;
    - a [float64] is the dyadic rational it denotes. *)

From Stdlib Require Import ZArith Lia.
From stdpp Require Import gmap strings list pretty sorting.

Local Open Scope Z_scope.

(** ** Channel widths (handle.go, lines 6-35) *)

Module Width.

(** [type ChannelWidth int] *)
Definition ChannelWidth : Type := Z.

(** [const ( ChannelWidthUnspecified = iota; ChannelWidth20MHz; ChannelWidth40MHz )] *)
Definition ChannelWidthUnspecified : ChannelWidth := 0.
Definition ChannelWidth20MHz : ChannelWidth := 1.
Definition ChannelWidth40MHz : ChannelWidth := 2.

(** [func NewChannelWidthMegahertz(mhz int) ChannelWidth]: a switch on [mhz]
    with the cases 20 and 40 and a default. *)
Definition NewChannelWidthMegahertz (mhz : Z) : ChannelWidth :=
  if decide (mhz = 20) then ChannelWidth20MHz
  else if decide (mhz = 40) then ChannelWidth40MHz
  else ChannelWidthUnspecified.

(** The map literal of [Megahertz]:
    [map[ChannelWidth]int{ChannelWidth20MHz: 20, ChannelWidth40MHz: 40}]. *)
Definition megahertz_table : gmap Z Z :=
  <[ChannelWidth20MHz := 20]> (<[ChannelWidth40MHz := 40]> ∅).

(** [func (w ChannelWidth) Megahertz() int]: the table indexed by [w]; Go
    gives the zero value of [int] for a key that is not in the map. *)
Definition Megahertz (w : ChannelWidth) : Z :=
  default 0 (megahertz_table !! w).

(** [type Channel struct { Number int; Width ChannelWidth }] *)
Record Channel := mkChannel { Number : Z; Width : ChannelWidth }.

End Width.

(** ** Data rates (handle.go, lines 43-50) *)

Module Rate.

(** [type DataRate int]: a multiple of 500 Kb/s. *)
Definition DataRate : Type := Z.

(** A finite [float64] is written by the dyadic rational it denotes,
    [f_mant * 2 ^ f_exp]. *)
Record float64 := F64 { f_mant : Z; f_exp : Z }.

(** The number of binary digits of [|a|]. *)
Definition bit_length (a : Z) : Z :=
  if decide (a = 0) then 0 else Z.log2 (Z.abs a) + 1.

(** [a / 2 ^ k] for [0 <= a], rounded to the nearest integer, a tie going to
    the even neighbour: the rounding of IEEE 754 arithmetic and of Go's
    decimal formatting. *)
Definition round_shift (a k : Z) : Z :=
  let q := Z.shiftr a k in
  let r := Z.land a (Z.ones k) in
  let half := Z.shiftl 1 (k - 1) in
  if decide (k <= 0) then a
  else if decide (r < half) then q
  else if decide (half < r) then q + 1
  else if Z.even q then q else q + 1.

(** The conversion [float64(d)]: an integer of at most 53 binary digits is
    kept as it is, a longer one is rounded to 53 significant digits. *)
Definition float64_of_int (d : Z) : float64 :=
  let n := bit_length d in
  if decide (n <= 53) then F64 d 0
  else F64 (Z.sgn d * round_shift (Z.abs d) (n - 53)) (n - 53).

(** [x / 2.0]: halving lowers the exponent and is exact (the values at hand
    are integers, far from the subnormal range). *)
Definition fdiv_two (x : float64) : float64 := F64 (f_mant x) (f_exp x - 1).

(** [|x| * 10] rounded to the nearest integer (ties to even): the digits
    that the verb [%.1f] prints. *)
Definition tenths (x : float64) : Z :=
  let t := 10 * Z.abs (f_mant x) in
  if decide (0 <= f_exp x) then Z.shiftl t (f_exp x)
  else round_shift t (- f_exp x).

(** [fmt.Sprintf("%.1f", x)]: a minus sign for a negative value, the integer
    part in decimal, a point and one fractional digit. *)
Definition format_f1 (x : float64) : string :=
  let n := tenths x in
  (if decide (f_mant x < 0) then "-" else "")
    +:+ pretty (n `div` 10) +:+ "." +:+ pretty (n `mod` 10).

(** [func (d DataRate) String() string]:
    [mbps := float64(d) / 2.0; return fmt.Sprintf("%.1f Mb/s", mbps)]. *)
Definition String (d : DataRate) : string :=
  format_f1 (fdiv_two (float64_of_int d)) +:+ " Mb/s".

(** The integer that a float64 with a non-negative exponent denotes. *)
Definition float64_to_Z (x : float64) : Z := f_mant x * 2 ^ f_exp x.

(** The specification's reading, in its own words: "the value [d] divided by
    2 formatted with exactly one fractional digit".  Half of an integer has
    the integer part [|d| / 2] and the fractional digit 5 or 0. *)
Definition half_with_one_digit (d : Z) : string :=
  (if decide (d < 0) then "-" else "")
    +:+ pretty (Z.abs d `div` 2) +:+ "." +:+ (if Z.odd d then "5" else "0").

End Rate.

(** ** The MAC packet container (MAC packet file, lines 3-40) *)

Module Packet.

(** Addresses of heap objects. *)
Definition loc : Type := positive.

(** A [[]byte] value is a slice header: the backing array ([None] for the nil
    slice), the offset of the first element in it, the length and the
    capacity.  Two headers that name the same array share its bytes. *)
Record slice := Slice {
  s_array : option loc;
  s_off : nat;
  s_len : nat;
  s_cap : nat
}.

Definition nil_slice : slice := Slice None 0 0 0.

(** [type MACPacket struct { RawData []byte }] *)
Record MACPacket := mkMACPacket { RawData : slice }.

(** [type RadioInfo struct { Frequency, NoisePower, SignalPower,
    TransmitPower int }] *)
Record RadioInfo := mkRadioInfo {
  Frequency : Z;
  NoisePower : Z;
  SignalPower : Z;
  TransmitPower : Z
}.

(** [type RadioPacket struct { MACPacket; RadioInfo *RadioInfo }]: the packet
    is embedded; the radio information is a pointer that may be nil, written
    here by the value it points to. *)
Record RadioPacket := mkRadioPacket {
  rp_MACPacket : MACPacket;
  rp_RadioInfo : option RadioInfo
}.

(** The store: the backing arrays of slices and the allocated [MACPacket]
    structs. *)
Record Heap := mkHeap {
  arrays : gmap loc (list Byte.byte);
  packets : gmap loc MACPacket
}.

Definition empty_heap : Heap := mkHeap ∅ ∅.

(** A value of the interface type [error]: [None] is nil, [Some msg] an
    error with the message [msg]. *)
Definition error : Type := option string.
Definition nil_error : error := None.

(** A Go computation: run on a store it returns a value and the new store,
    or it panics ([None]). *)
Definition go (A : Type) : Type := Heap → option (A * Heap).

#[export] Instance go_ret : MRet go := λ A a h, Some (a, h).

#[export] Instance go_bind : MBind go := λ A B f m h,
  match m h with
  | Some (a, h') => f a h'
  | None => None
  end.

(** [&MACPacket{...}]: the struct is stored at an address no packet has. *)
Definition new_MACPacket (v : MACPacket) : go loc := λ h,
  let p := fresh (dom (packets h)) in
  Some (p, mkHeap (arrays h) (<[p := v]> (packets h))).

(** Reading through a [*MACPacket]: a nil pointer panics.  (An address
    without a struct cannot arise in Go; it is treated like nil.) *)
Definition load_MACPacket (m : option loc) : go MACPacket := λ h,
  match m with
  | None => None
  | Some p =>
      match packets h !! p with
      | Some v => Some (v, h)
      | None => None
      end
  end.

(** [func ParseMACPacket(data []byte)], with the results [*MACPacket] and
    [error]: [return &MACPacket{data}, nil]. *)
Definition ParseMACPacket (data : slice) : go (option loc * error) :=
  m ← new_MACPacket (mkMACPacket data); mret (Some m, nil_error).

(** [Encode() []byte], a method of [*MACPacket]: [return m.RawData]. *)
Definition Encode (m : option loc) : go slice :=
  v ← load_MACPacket m; mret (RawData v).

(** The bytes a slice holds in a store. *)
Definition bytes_of (h : Heap) (s : slice) : list Byte.byte :=
  match s_array s with
  | None => []
  | Some a => take (s_len s) (drop (s_off s) (default [] (arrays h !! a)))
  end.

(** A call of [ParseMACPacket] fails when it returns a non-nil error. *)
Definition parse_fails (data : slice) (h : Heap) : Prop :=
  ∃ m e h', ParseMACPacket data h = Some ((m, Some e), h').

(** [Encode(ParseMACPacket(data))], the error being dropped. *)
Definition parse_then_encode (data : slice) : go slice :=
  r ← ParseMACPacket data; Encode r.1.

(** Sample stores for concrete runs: one array of 26 bytes whose first 24
    are the header of a data frame, the slice over those 24, and a store
    that also holds a packet wrapping that slice. *)
Definition sample_array : list Byte.byte :=
  [Byte.x08; Byte.x01; Byte.x00; Byte.x00] ++ replicate 22 Byte.xff.
Definition sample_heap : Heap := mkHeap {[ 5%positive := sample_array ]} ∅.
Definition sample_slice : slice := Slice (Some 5%positive) 0 24 26.
Definition sample_packet_heap : Heap :=
  mkHeap {[ 5%positive := sample_array ]}
         {[ 3%positive := mkMACPacket sample_slice ]}.

End Packet.

(** ** The device handle (handle.go, lines 52-87) *)

Module Device.
Import Rate.

(** Modelled from the spec: the sources declare [Handle] as an interface and
    hold no type that implements it, so the method [SupportedRates] has no
    body to embed.  The specification describes the device handle as a thin
    coordinator over a transport collaborator that provides [listRates()],
    and requires [SupportedRates] to "return rates in ascending numeric
    order; empty slice if unknown", also for a device that advertises its
    rates out of order.  The transport is modelled by what it advertises (no
    rate when the rates are unknown), the method by sorting that list. *)
Record Transport := mkTransport { listRates : list DataRate }.

Definition SupportedRates (t : Transport) : list DataRate :=
  merge_sort Z.le (listRates t).

End Device.

(** ** Decimal text *)

Module Digits.

(** The characters ['0'] to ['9']. *)
Definition is_digit (c : Ascii.ascii) : bool :=
  ((48 <=? Ascii.nat_of_ascii c) && (Ascii.nat_of_ascii c <=? 57))%nat.

(** A string of decimal digits only. *)
Fixpoint all_digits (s : string) : bool :=
  match s with
  | EmptyString => true
  | String.String c s' => is_digit c && all_digits s'
  end.

End Digits.

(** ** Properties of the channel widths *)

Module WidthFacts.
Import Width.

Example new_20 : NewChannelWidthMegahertz 20 = ChannelWidth20MHz.
Proof. reflexivity. Qed.

Example new_40 : NewChannelWidthMegahertz 40 = ChannelWidth40MHz.
Proof. reflexivity. Qed.

Example new_30 : NewChannelWidthMegahertz 30 = ChannelWidthUnspecified.
Proof. reflexivity. Qed.

Example new_negative : NewChannelWidthMegahertz (-20) = ChannelWidthUnspecified.
Proof. reflexivity. Qed.

Lemma new_other (mhz : Z) :
  mhz ≠ 20 → mhz ≠ 40 → NewChannelWidthMegahertz mhz = ChannelWidthUnspecified.
Proof.
  intros H20 H40. unfold NewChannelWidthMegahertz.
  destruct (decide (mhz = 20)) as [->|_]; [contradiction|].
  destruct (decide (mhz = 40)) as [->|_]; [contradiction|reflexivity].
Qed.

(** The three constants are pairwise distinct, so the result tells the three
    cases of the switch apart. *)
Lemma widths_distinct :
  ChannelWidthUnspecified ≠ ChannelWidth20MHz
  ∧ ChannelWidthUnspecified ≠ ChannelWidth40MHz
  ∧ ChannelWidth20MHz ≠ ChannelWidth40MHz.
Proof. unfold ChannelWidthUnspecified, ChannelWidth20MHz, ChannelWidth40MHz. lia. Qed.

(** What the table holds: exactly the two keys. *)
Lemma table_lookup (w : ChannelWidth) :
  megahertz_table !! w =
    if decide (w = ChannelWidth20MHz) then Some 20
    else if decide (w = ChannelWidth40MHz) then Some 40
    else None.
Proof.
  unfold megahertz_table.
  destruct (decide (w = ChannelWidth20MHz)) as [->|H1].
  - apply lookup_insert_eq.
  - rewrite lookup_insert_ne by congruence.
    destruct (decide (w = ChannelWidth40MHz)) as [->|H2].
    + apply lookup_insert_eq.
    + rewrite lookup_insert_ne by congruence. apply lookup_empty.
Qed.

(** A width that is neither of the two keys misses the table. *)
Lemma Megahertz_miss (w : ChannelWidth) :
  w ≠ ChannelWidth20MHz → w ≠ ChannelWidth40MHz → Megahertz w = 0.
Proof.
  intros H1 H2. unfold Megahertz. rewrite table_lookup.
  destruct (decide (w = ChannelWidth20MHz)); [contradiction|].
  destruct (decide (w = ChannelWidth40MHz)); [contradiction|reflexivity].
Qed.

(** C3: for every integer [mhz], [NewChannelWidthMegahertz mhz] is
    [ChannelWidth20MHz] when [mhz] is 20, [ChannelWidth40MHz] when it is 40
    and [ChannelWidthUnspecified] for every other value.  The function is
    total and its result type has no error component, so no input makes it
    fail. *)
Theorem NewChannelWidthMegahertz_spec (mhz : Z) :
  (mhz = 20 → NewChannelWidthMegahertz mhz = ChannelWidth20MHz)
  ∧ (mhz = 40 → NewChannelWidthMegahertz mhz = ChannelWidth40MHz)
  ∧ (mhz ≠ 20 → mhz ≠ 40 → NewChannelWidthMegahertz mhz = ChannelWidthUnspecified).
Proof.
  split; [|split].
  - intros ->. exact new_20.
  - intros ->. exact new_40.
  - apply new_other.
Qed.

Lemma NewChannelWidthMegahertz_spec_witness :
  (20 = 20 → NewChannelWidthMegahertz 20 = ChannelWidth20MHz)
  ∧ (20 = 40 → NewChannelWidthMegahertz 20 = ChannelWidth40MHz)
  ∧ (20 ≠ 20 → 20 ≠ 40 → NewChannelWidthMegahertz 20 = ChannelWidthUnspecified).
Proof. exact (NewChannelWidthMegahertz_spec 20). Defined.

(** C4: [Megahertz] gives 20 for [ChannelWidth20MHz], 40 for
    [ChannelWidth40MHz], and for [ChannelWidthUnspecified] the zero that a
    missed map lookup yields. *)
Theorem Megahertz_spec :
  Megahertz ChannelWidth20MHz = 20
  ∧ Megahertz ChannelWidth40MHz = 40
  ∧ megahertz_table !! ChannelWidthUnspecified = None
  ∧ Megahertz ChannelWidthUnspecified = 0.
Proof.
  split; [|split; [|split]].
  - unfold Megahertz. rewrite table_lookup. reflexivity.
  - unfold Megahertz. rewrite table_lookup. reflexivity.
  - rewrite table_lookup. reflexivity.
  - apply Megahertz_miss; apply widths_distinct.
Qed.

(** C6: for [mhz] in {20, 40}, building a width from [mhz] and reading its
    megahertz back gives [mhz]. *)
Theorem Megahertz_NewChannelWidthMegahertz (mhz : Z) :
  mhz = 20 ∨ mhz = 40 →
  Megahertz (NewChannelWidthMegahertz mhz) = mhz.
Proof. intros [-> | ->]; reflexivity. Qed.

Lemma Megahertz_NewChannelWidthMegahertz_witness :
  Megahertz (NewChannelWidthMegahertz 40) = 40.
Proof. apply (Megahertz_NewChannelWidthMegahertz 40). right. reflexivity. Defined.

(** Outside {20, 40} the round trip does not give [mhz] back: it gives 0. *)
Lemma Megahertz_NewChannelWidthMegahertz_other (mhz : Z) :
  mhz ≠ 20 → mhz ≠ 40 → Megahertz (NewChannelWidthMegahertz mhz) = 0.
Proof.
  intros H20 H40. rewrite new_other by assumption.
  apply Megahertz_miss; apply widths_distinct.
Qed.

End WidthFacts.

(** ** Properties of the data rates *)

Module RateFacts.
Import Rate.

Example String_11 : String 11 = "5.5 Mb/s".
Proof. reflexivity. Qed.

Example String_2 : String 2 = "1.0 Mb/s".
Proof. reflexivity. Qed.

Example String_0 : String 0 = "0.0 Mb/s".
Proof. reflexivity. Qed.

Example String_108 : String 108 = "54.0 Mb/s".
Proof. reflexivity. Qed.

Example String_minus_3 : String (-3) = "-1.5 Mb/s".
Proof. reflexivity. Qed.

(** The conversion rounds: 2^53 + 1 has 54 binary digits and lies half way
    between two floats; the tie goes to the even one, 2^53. *)
Example float64_of_int_rounds :
  float64_of_int (2 ^ 53 + 1) = F64 (2 ^ 52) 1.
Proof. reflexivity. Qed.

(** 2^53 + 3 lies half way between 2^53 + 2 and 2^53 + 4 and goes to the
    latter, whose significand is even; the largest [int], 2^63 - 1, goes
    to 2^63. *)
Example float64_of_int_ties_up :
  float64_to_Z (float64_of_int (2 ^ 53 + 3)) = 2 ^ 53 + 4
  ∧ float64_to_Z (float64_of_int (2 ^ 63 - 1)) = 2 ^ 63.
Proof. split; reflexivity. Qed.

Lemma bit_length_small (d : Z) : Z.abs d < 2 ^ 53 → bit_length d <= 53.
Proof.
  intros Hd. unfold bit_length. destruct (decide (d = 0)); [lia|].
  assert (Z.log2 (Z.abs d) < 53); [|lia].
  apply Z.log2_lt_pow2; lia.
Qed.

(** An integer below 2^53 in absolute value is converted exactly. *)
Lemma float64_of_int_exact (d : Z) :
  Z.abs d < 2 ^ 53 → float64_of_int d = F64 d 0.
Proof.
  intros Hd. unfold float64_of_int.
  destruct (decide (bit_length d <= 53)) as [_|Hn]; [reflexivity|].
  exfalso. apply Hn, bit_length_small, Hd.
Qed.

(** So is 2^53 itself, of either sign. *)
Lemma float64_to_Z_of_int (d : Z) :
  Z.abs d <= 2 ^ 53 → float64_to_Z (float64_of_int d) = d.
Proof.
  intros Hd. destruct (decide (Z.abs d < 2 ^ 53)) as [Hlt|Hge].
  - rewrite float64_of_int_exact by assumption.
    unfold float64_to_Z. cbn [f_mant f_exp]. lia.
  - assert (d = 2 ^ 53 ∨ d = - 2 ^ 53) as [-> | ->] by lia; reflexivity.
Qed.

(** [round_shift] rounds to a nearest multiple: the result times [2 ^ k] is
    at most half a unit away from [a]. *)
Lemma round_shift_nearest (a k : Z) :
  0 <= a → 0 < k →
  2 * Z.abs (round_shift a k * 2 ^ k - a) <= 2 ^ k.
Proof.
  intros Ha Hk. unfold round_shift.
  destruct (decide (k <= 0)); [lia|].
  rewrite Z.land_ones, Z.shiftr_div_pow2, Z.shiftl_1_l by lia.
  assert (2 ^ k = 2 * 2 ^ (k - 1)) as Hp.
  { replace (2 ^ k) with (2 ^ (1 + (k - 1))) by (f_equal; lia).
    rewrite Z.pow_add_r by lia. reflexivity. }
  assert (0 < 2 ^ (k - 1)) as Hh by (apply Z.pow_pos_nonneg; lia).
  pose proof (Z.div_mod a (2 ^ k)) as Hdm.
  pose proof (Z.mod_pos_bound a (2 ^ k)) as Hb.
  set (q := a `div` 2 ^ k) in *. set (r := a `mod` 2 ^ k) in *.
  set (half := 2 ^ (k - 1)) in *.
  destruct (decide (r < half)); [nia|].
  destruct (decide (half < r)); [nia|].
  destruct (Z.even q); nia.
Qed.

Lemma round_shift_even (a : Z) : 0 <= a → round_shift (2 * a) 1 = a.
Proof.
  intros Ha. unfold round_shift.
  destruct (decide (1 <= 0)); [lia|].
  rewrite Z.land_ones by lia. rewrite Z.shiftr_div_pow2 by lia.
  change (2 ^ 1) with 2. change (Z.shiftl 1 (1 - 1)) with 1.
  replace ((2 * a) `mod` 2) with 0
    by (symmetry; rewrite Z.mul_comm; apply Z.mod_mul; lia).
  destruct (decide (0 < 1)); [|lia].
  rewrite Z.mul_comm. apply Z.div_mul. lia.
Qed.

(** Ten times half of an integer is an integer: nothing is rounded when the
    half of an exactly converted [d] is printed. *)
Lemma tenths_half (d : Z) : tenths (F64 d (-1)) = 5 * Z.abs d.
Proof.
  unfold tenths. cbn [f_mant f_exp].
  destruct (decide (0 <= -1)); [lia|].
  change (- -1) with 1.
  replace (10 * Z.abs d) with (2 * (5 * Z.abs d)) by lia.
  apply round_shift_even. lia.
Qed.

Lemma odd_abs (d : Z) : Z.odd (Z.abs d) = Z.odd d.
Proof. destruct d; reflexivity. Qed.

(** Printing the half of a float of exponent 0. *)
Lemma format_half_exp0 (d : Z) :
  format_f1 (fdiv_two (F64 d 0)) = half_with_one_digit d.
Proof.
  unfold format_f1, half_with_one_digit, fdiv_two. cbn [f_mant f_exp].
  change (0 - 1) with (-1). rewrite tenths_half.
  change 10 with (5 * 2).
  rewrite Z.div_mul_cancel_l by lia.
  rewrite Z.mul_mod_distr_l by lia.
  rewrite Zmod_odd, odd_abs.
  destruct (Z.odd d); reflexivity.
Qed.

(** Printing the half of a float of positive exponent: an integer. *)
Lemma format_half_exp_pos (m k : Z) :
  0 < k →
  format_f1 (fdiv_two (F64 m k)) = half_with_one_digit (float64_to_Z (F64 m k)).
Proof.
  intros Hk.
  unfold format_f1, half_with_one_digit, fdiv_two, tenths, float64_to_Z.
  cbn [f_mant f_exp].
  destruct (decide (0 <= k - 1)); [|lia].
  assert (0 < 2 ^ (k - 1)) as Hp by (apply Z.pow_pos_nonneg; lia).
  assert (2 ^ k = 2 ^ (k - 1) * 2) as ->.
  { replace (2 ^ k) with (2 ^ ((k - 1) + 1)) by (f_equal; lia).
    rewrite Z.pow_add_r by lia. reflexivity. }
  rewrite Z.shiftl_mul_pow2 by lia.
  replace (10 * Z.abs m * 2 ^ (k - 1)) with (Z.abs m * 2 ^ (k - 1) * 10) by lia.
  rewrite Z.div_mul by lia. rewrite Z.mod_mul by lia.
  replace (Z.abs (m * (2 ^ (k - 1) * 2))) with (Z.abs m * 2 ^ (k - 1) * 2)
    by (rewrite Z.abs_mul; lia).
  rewrite Z.div_mul by lia.
  replace (m * (2 ^ (k - 1) * 2)) with (2 * (m * 2 ^ (k - 1))) by lia.
  rewrite Z.odd_mul. cbn [Z.odd andb].
  destruct (decide (m < 0)), (decide (2 * (m * 2 ^ (k - 1)) < 0));
    try reflexivity; exfalso; nia.
Qed.

(** What [String] prints for every [d]: the half of the float that [d] is
    converted to, which has at most one fractional digit. *)
Lemma String_of_rounded (d : Z) :
  String d = half_with_one_digit (float64_to_Z (float64_of_int d)) +:+ " Mb/s".
Proof.
  unfold String. f_equal. unfold float64_of_int.
  destruct (decide (bit_length d <= 53)) as [Hn|Hn].
  - rewrite format_half_exp0. f_equal.
    unfold float64_to_Z. cbn [f_mant f_exp]. lia.
  - apply format_half_exp_pos. lia.
Qed.

(** C5, as amended: for every data rate [d] with [|d| <= 2^53], the integers
    that the conversion to float64 keeps exact, [String d] is [d] divided by
    2 written with exactly one fractional digit and followed by " Mb/s"; in
    particular 11 gives "5.5 Mb/s" and 2 gives "1.0 Mb/s". *)
Theorem String_half_one_digit :
  (∀ d : DataRate, Z.abs d <= 2 ^ 53 →
     String d = half_with_one_digit d +:+ " Mb/s")
  ∧ String 11 = "5.5 Mb/s"
  ∧ String 2 = "1.0 Mb/s".
Proof.
  split; [|split; reflexivity].
  intros d Hd. rewrite String_of_rounded.
  rewrite float64_to_Z_of_int by assumption. reflexivity.
Qed.

Lemma String_half_one_digit_witness :
  Z.abs 11 <= 2 ^ 53 ∧ String 11 = half_with_one_digit 11 +:+ " Mb/s".
Proof.
  assert (Z.abs 11 <= 2 ^ 53) as H by (vm_compute; discriminate).
  split; [exact H|].
  exact (proj1 String_half_one_digit 11 H).
Defined.

(** C5 as stated fails on a 64-bit [int]: 2^53 + 1 = 9007199254740993 is
    rounded to 2^53 by the conversion to float64, so the digit after the
    point is 0 where half of [d] has 5. *)
Lemma String_not_half_at_2p53_plus_1 :
  String 9007199254740993 = "4503599627370496.0 Mb/s"
  ∧ half_with_one_digit 9007199254740993 +:+ " Mb/s" = "4503599627370496.5 Mb/s"
  ∧ String 9007199254740993 ≠ half_with_one_digit 9007199254740993 +:+ " Mb/s".
Proof.
  split; [|split].
  - vm_compute. reflexivity.
  - vm_compute. reflexivity.
  - vm_compute. discriminate.
Qed.

End RateFacts.

(** ** Properties of the MAC packet container *)

Module PacketFacts.
Import Packet.

(** Running one computation after another. *)
Lemma bind_returns {A B : Type} (c : go A) (k : A → go B) (h h' : Heap) (a : A) :
  c h = Some (a, h') → (c ≫= k) h = k a h'.
Proof. intros Hc. unfold mbind, go_bind. rewrite Hc. reflexivity. Qed.

Lemma bind_panics {A B : Type} (c : go A) (k : A → go B) (h : Heap) :
  c h = None → (c ≫= k) h = None.
Proof. intros Hc. unfold mbind, go_bind. rewrite Hc. reflexivity. Qed.

(** The address of a new packet is not in use. *)
Lemma fresh_packet (h : Heap) : packets h !! fresh (dom (packets h)) = None.
Proof. apply not_elem_of_dom, is_fresh. Qed.

(** Allocation adds one struct and leaves every array as it is. *)
Lemma new_MACPacket_returns (v : MACPacket) (h : Heap) :
  new_MACPacket v h =
    Some (fresh (dom (packets h)),
          mkHeap (arrays h) (<[fresh (dom (packets h)) := v]> (packets h))).
Proof. reflexivity. Qed.

Lemma load_MACPacket_returns (m : loc) (v : MACPacket) (h : Heap) :
  packets h !! m = Some v → load_MACPacket (Some m) h = Some (v, h).
Proof. intros Hm. unfold load_MACPacket. rewrite Hm. reflexivity. Qed.

(** The bytes of a slice depend on the arrays of the store only. *)
Lemma bytes_of_arrays (h h' : Heap) (s : slice) :
  arrays h' = arrays h → bytes_of h' s = bytes_of h s.
Proof. intros Ha. unfold bytes_of. rewrite Ha. reflexivity. Qed.

(** What [ParseMACPacket] does on every input and store. *)
Lemma ParseMACPacket_returns (data : slice) (h : Heap) :
  ParseMACPacket data h =
    Some ((Some (fresh (dom (packets h))), nil_error),
          mkHeap (arrays h)
                 (<[fresh (dom (packets h)) := mkMACPacket data]> (packets h))).
Proof. reflexivity. Qed.

(** What [Encode] does on a pointer to a packet. *)
Lemma Encode_returns (m : loc) (v : MACPacket) (h : Heap) :
  packets h !! m = Some v → Encode (Some m) h = Some (RawData v, h).
Proof.
  intros Hm. unfold Encode.
  rewrite (bind_returns _ _ h h v) by (apply load_MACPacket_returns, Hm).
  reflexivity.
Qed.

(** A nil receiver makes [Encode] panic: [m.RawData] dereferences it. *)
Lemma Encode_nil_panics (h : Heap) : Encode None h = None.
Proof. reflexivity. Qed.

(** Parsing and then encoding gives the slice header back. *)
Lemma parse_then_encode_returns (data : slice) (h : Heap) :
  parse_then_encode data h =
    Some (data,
          mkHeap (arrays h)
                 (<[fresh (dom (packets h)) := mkMACPacket data]> (packets h))).
Proof.
  unfold parse_then_encode.
  rewrite (bind_returns _ _ _ _ _ (ParseMACPacket_returns data h)).
  cbn [fst].
  rewrite (Encode_returns _ (mkMACPacket data)); [reflexivity|].
  cbn [packets]. apply lookup_insert_eq.
Qed.

(** No input makes [ParseMACPacket] fail. *)
Lemma ParseMACPacket_never_fails (data : slice) (h : Heap) :
  ¬ parse_fails data h.
Proof.
  intros (m & e & h' & Hp). rewrite ParseMACPacket_returns in Hp.
  unfold nil_error in Hp. congruence.
Qed.

(** C1 as stated fails: the empty byte sequence is shorter than every
    positive header length, and [ParseMACPacket] returns a packet and a nil
    error for it. *)
Lemma ParseMACPacket_accepts_empty :
  (∀ min_header_len : nat, (0 < min_header_len)%nat →
     (s_len nil_slice < min_header_len)%nat)
  ∧ bytes_of empty_heap nil_slice = []
  ∧ ParseMACPacket nil_slice empty_heap =
      Some ((Some 1%positive, nil_error),
            mkHeap ∅ {[ 1%positive := mkMACPacket nil_slice ]})
  ∧ ¬ parse_fails nil_slice empty_heap.
Proof.
  split; [|split; [|split]].
  - intros n Hn. cbn [s_len nil_slice]. exact Hn.
  - reflexivity.
  - vm_compute. reflexivity.
  - apply ParseMACPacket_never_fails.
Qed.

(** C1, as amended: [ParseMACPacket] validates nothing.  For every byte
    sequence, however short and whatever its first bytes say about the frame
    type, it returns a non-nil packet together with a nil error: it never
    fails. *)
Theorem ParseMACPacket_accepts_all (data : slice) (h : Heap) :
  (∃ (m : loc) (h' : Heap),
     ParseMACPacket data h = Some ((Some m, nil_error), h'))
  ∧ ¬ parse_fails data h.
Proof.
  split.
  - eexists _, _. apply ParseMACPacket_returns.
  - apply ParseMACPacket_never_fails.
Qed.

(** C2: for every notion of well-formedness and every well-formed byte
    sequence [b], held by the slice [data] in the store [h], encoding the
    parsed packet returns [data] itself, and the bytes it holds afterwards
    are [b]. *)
Theorem Encode_ParseMACPacket_well_formed
    (well_formed : list Byte.byte → Prop) (data : slice) (h : Heap) :
  well_formed (bytes_of h data) →
  ∃ h' : Heap,
    parse_then_encode data h = Some (data, h')
    ∧ bytes_of h' data = bytes_of h data.
Proof.
  intros _. eexists. split.
  - apply parse_then_encode_returns.
  - apply bytes_of_arrays. reflexivity.
Qed.

Lemma Encode_ParseMACPacket_well_formed_witness :
  ∃ h' : Heap,
    parse_then_encode sample_slice sample_heap = Some (sample_slice, h')
    ∧ bytes_of h' sample_slice = bytes_of sample_heap sample_slice.
Proof.
  apply (Encode_ParseMACPacket_well_formed
           (λ b, length b = 24%nat) sample_slice sample_heap).
  reflexivity.
Defined.

(** C7: [Encode] is pure and deterministic.  For every packet [m] of the
    store, a call returns the packet's [RawData] and leaves the whole store,
    the packet included, as it was; so two calls in a row return the same
    slice, holding the same bytes. *)
Theorem Encode_pure (m : loc) (v : MACPacket) (h : Heap) :
  packets h !! m = Some v →
  Encode (Some m) h = Some (RawData v, h)
  ∧ (a ← Encode (Some m); b ← Encode (Some m); mret (a, b)) h
      = Some ((RawData v, RawData v), h).
Proof.
  intros Hm. pose proof (Encode_returns m v h Hm) as He. split; [exact He|].
  rewrite (bind_returns _ _ _ _ _ He).
  rewrite (bind_returns _ _ _ _ _ He).
  reflexivity.
Qed.

Lemma Encode_pure_witness :
  Encode (Some 3%positive) sample_packet_heap
    = Some (sample_slice, sample_packet_heap)
  ∧ (a ← Encode (Some 3%positive); b ← Encode (Some 3%positive); mret (a, b))
      sample_packet_heap
      = Some ((sample_slice, sample_slice), sample_packet_heap).
Proof.
  apply (Encode_pure 3%positive (mkMACPacket sample_slice) sample_packet_heap).
  reflexivity.
Defined.

(** C10: [ParseMACPacket] is total and never fails.  For every slice [data],
    the empty one included, and every store it returns a nil error and a
    pointer to a new packet whose [RawData] is [data]; nothing else in the
    store changes, so [Encode] of that packet returns [data], holding the
    bytes it held before. *)
Theorem ParseMACPacket_total (data : slice) (h : Heap) :
  ∃ (m : loc) (h' : Heap),
    ParseMACPacket data h = Some ((Some m, nil_error), h')
    ∧ packets h !! m = None
    ∧ packets h' = <[m := mkMACPacket data]> (packets h)
    ∧ packets h' !! m = Some (mkMACPacket data)
    ∧ arrays h' = arrays h
    ∧ Encode (Some m) h' = Some (data, h')
    ∧ parse_then_encode data h = Some (data, h')
    ∧ bytes_of h' data = bytes_of h data.
Proof.
  eexists _, _. split; [apply ParseMACPacket_returns|].
  split; [apply fresh_packet|].
  split; [reflexivity|].
  assert (∀ (p : loc) (ps : gmap loc MACPacket),
            <[p := mkMACPacket data]> ps !! p = Some (mkMACPacket data)) as Hl
    by (intros; apply lookup_insert_eq).
  split; [apply Hl|].
  split; [reflexivity|].
  split; [apply (Encode_returns _ (mkMACPacket data)), Hl|].
  split; [apply parse_then_encode_returns|].
  apply bytes_of_arrays. reflexivity.
Qed.

End PacketFacts.

(** ** Properties of the device handle *)

Module DeviceFacts.
Import Rate Device.

Example SupportedRates_out_of_order :
  SupportedRates (mkTransport [108; 2; 22; 4; 11]) = [2; 4; 11; 22; 108].
Proof. vm_compute. reflexivity. Qed.

(** The ascending order, in the two forms lists have it: every rate is at
    most the next one, and at most every later one. *)
Lemma SupportedRates_sorted (t : Transport) :
  Sorted Z.le (SupportedRates t) ∧ StronglySorted Z.le (SupportedRates t).
Proof.
  unfold SupportedRates. split.
  - apply Sorted_merge_sort. apply _.
  - apply StronglySorted_merge_sort; apply _.
Qed.

(** C9: for every transport, [SupportedRates] returns the advertised rates,
    each as often as it is advertised, in ascending numeric order; when no
    rate is known it returns the empty list. *)
Theorem SupportedRates_ascending (t : Transport) :
  StronglySorted Z.le (SupportedRates t)
  ∧ SupportedRates t ≡ₚ listRates t
  ∧ SupportedRates (mkTransport []) = [].
Proof.
  split; [apply SupportedRates_sorted|].
  split; [apply merge_sort_Permutation|].
  reflexivity.
Qed.

End DeviceFacts.

(** ** Further properties of the channel widths *)

Module WidthInversion.
Import Width WidthFacts.

(** The result of [NewChannelWidthMegahertz] is one of the three constants. *)
Lemma new_range (mhz : Z) :
  NewChannelWidthMegahertz mhz = ChannelWidthUnspecified
  ∨ NewChannelWidthMegahertz mhz = ChannelWidth20MHz
  ∨ NewChannelWidthMegahertz mhz = ChannelWidth40MHz.
Proof.
  unfold NewChannelWidthMegahertz.
  destruct (decide (mhz = 20)); [auto|].
  destruct (decide (mhz = 40)); auto.
Qed.

(** X1: the width tells the input apart.  [NewChannelWidthMegahertz mhz] is
    [ChannelWidth20MHz] only for 20, [ChannelWidth40MHz] only for 40, and
    [ChannelWidthUnspecified] exactly for the integers that are neither. *)
Theorem NewChannelWidthMegahertz_inversion (mhz : Z) :
  (NewChannelWidthMegahertz mhz = ChannelWidth20MHz ↔ mhz = 20)
  ∧ (NewChannelWidthMegahertz mhz = ChannelWidth40MHz ↔ mhz = 40)
  ∧ (NewChannelWidthMegahertz mhz = ChannelWidthUnspecified ↔ mhz ≠ 20 ∧ mhz ≠ 40).
Proof.
  destruct (decide (mhz = 20)) as [->|H20]; [rewrite new_20|].
  2: destruct (decide (mhz = 40)) as [->|H40];
       [rewrite new_40|rewrite (new_other mhz H20 H40)].
  all: unfold ChannelWidthUnspecified, ChannelWidth20MHz, ChannelWidth40MHz; lia.
Qed.

(** The two entries of the table, read through [Megahertz]. *)
Lemma Megahertz_hit :
  Megahertz ChannelWidth20MHz = 20 ∧ Megahertz ChannelWidth40MHz = 40.
Proof. unfold Megahertz. rewrite !table_lookup. split; reflexivity. Qed.

(** X2: what [Megahertz] can return.  The result is 20 only for
    [ChannelWidth20MHz], 40 only for [ChannelWidth40MHz], and 0 for every
    other integer used as a width (a missed lookup); no other value is ever
    returned. *)
Theorem Megahertz_inversion (w : ChannelWidth) :
  (Megahertz w = 20 ↔ w = ChannelWidth20MHz)
  ∧ (Megahertz w = 40 ↔ w = ChannelWidth40MHz)
  ∧ (Megahertz w = 0 ↔ w ≠ ChannelWidth20MHz ∧ w ≠ ChannelWidth40MHz)
  ∧ (Megahertz w = 0 ∨ Megahertz w = 20 ∨ Megahertz w = 40).
Proof.
  destruct Megahertz_hit as [M20 M40].
  destruct (decide (w = ChannelWidth20MHz)) as [->|H1]; [rewrite M20|].
  2: destruct (decide (w = ChannelWidth40MHz)) as [->|H2];
       [rewrite M40|rewrite (Megahertz_miss w H1 H2)].
  3: revert H1 H2.
  all: unfold ChannelWidthUnspecified, ChannelWidth20MHz, ChannelWidth40MHz; lia.
Qed.

(** X3: a width survives the trip through its megahertz value exactly when it
    is one of the three constants; every other integer used as a width comes
    back as [ChannelWidthUnspecified]. *)
Theorem NewChannelWidthMegahertz_Megahertz (w : ChannelWidth) :
  (NewChannelWidthMegahertz (Megahertz w) = w
     ↔ w = ChannelWidthUnspecified ∨ w = ChannelWidth20MHz ∨ w = ChannelWidth40MHz)
  ∧ (w ≠ ChannelWidth20MHz → w ≠ ChannelWidth40MHz →
       NewChannelWidthMegahertz (Megahertz w) = ChannelWidthUnspecified).
Proof.
  destruct Megahertz_hit as [M20 M40].
  destruct (decide (w = ChannelWidth20MHz)) as [->|H1]; [rewrite M20, new_20|].
  2: destruct (decide (w = ChannelWidth40MHz)) as [->|H2];
       [rewrite M40, new_40
       |rewrite (Megahertz_miss w H1 H2);
        change (NewChannelWidthMegahertz 0) with ChannelWidthUnspecified].
  3: revert H1 H2.
  all: unfold ChannelWidthUnspecified, ChannelWidth20MHz, ChannelWidth40MHz; lia.
Qed.

Lemma NewChannelWidthMegahertz_Megahertz_witness :
  NewChannelWidthMegahertz (Megahertz 7) = ChannelWidthUnspecified.
Proof.
  apply (proj2 (NewChannelWidthMegahertz_Megahertz 7));
    unfold ChannelWidth20MHz, ChannelWidth40MHz; lia.
Defined.

(** X4: a megahertz value survives the trip through its width exactly when it
    is 0, 20 or 40; every other value comes back as 0. *)
Theorem Megahertz_NewChannelWidthMegahertz_exactly (mhz : Z) :
  (Megahertz (NewChannelWidthMegahertz mhz) = mhz ↔ mhz = 0 ∨ mhz = 20 ∨ mhz = 40)
  ∧ (Megahertz (NewChannelWidthMegahertz mhz) = 0
     ∨ Megahertz (NewChannelWidthMegahertz mhz) = mhz).
Proof.
  destruct Megahertz_hit as [M20 M40].
  destruct (decide (mhz = 20)) as [->|H20]; [rewrite new_20, M20; lia|].
  destruct (decide (mhz = 40)) as [->|H40]; [rewrite new_40, M40; lia|].
  rewrite (Megahertz_NewChannelWidthMegahertz_other mhz H20 H40). lia.
Qed.

End WidthInversion.

(** ** Further properties of the data rates *)

Module RateText.
Import Stdlib.Strings.Ascii.
Import Rate RateFacts Digits.

Lemma append_assoc (a b c : string) : (a +:+ b) +:+ c = a +:+ (b +:+ c).
Proof.
  induction a as [|x a IH]; [reflexivity|].
  change (String.String x ((a +:+ b) +:+ c) = String.String x (a +:+ (b +:+ c))).
  rewrite IH. reflexivity.
Qed.

Lemma pretty_N_char_digit (x : N) : is_digit (pretty_N_char x) = true.
Proof. unfold pretty_N_char. repeat case_match; reflexivity. Qed.

Lemma pretty_N_go_digits (x : N) (s : string) :
  all_digits s = true → all_digits (pretty_N_go x s) = true.
Proof.
  revert s. induction (N.lt_wf_0 x) as [x _ IH]; intros s Hs.
  assert (x = 0 ∨ 0 < x)%N as [->|Hx] by lia.
  - rewrite pretty_N_go_0. exact Hs.
  - rewrite pretty_N_go_step by exact Hx. apply IH.
    + apply N.div_lt; lia.
    + cbn [all_digits]. rewrite pretty_N_char_digit, Hs. reflexivity.
Qed.

(** The decimal text of a natural number has digits only. *)
Lemma pretty_N_digits (x : N) : all_digits (pretty x) = true.
Proof.
  unfold pretty, pretty_N. destruct (decide (x = 0%N)); [reflexivity|].
  apply pretty_N_go_digits. reflexivity.
Qed.

Lemma pretty_Z_digits (n : Z) : 0 <= n → all_digits (pretty n) = true.
Proof.
  intros Hn. destruct n as [|p|p]; [reflexivity| |lia].
  apply (pretty_N_digits (Npos p)).
Qed.

(** Digits end at the first point: two texts that agree have the same digits
    before it and the same text after it. *)
Lemma split_at_point (s1 s2 t1 t2 : string) :
  all_digits s1 = true → all_digits s2 = true →
  s1 +:+ String.String "."%char t1 = s2 +:+ String.String "."%char t2 →
  s1 = s2 ∧ t1 = t2.
Proof.
  revert s2. induction s1 as [|c1 s1 IH]; intros [|c2 s2] H1 H2 Heq; cbn in *.
  - injection Heq as ->. split; reflexivity.
  - injection Heq as <- _. discriminate H2.
  - injection Heq as -> _. discriminate H1.
  - injection Heq as -> Heq.
    apply andb_prop in H1 as [_ H1]. apply andb_prop in H2 as [_ H2].
    destruct (IH s2 H1 H2 Heq) as [-> ->]. split; reflexivity.
Qed.

(** A text of digits followed by a point does not start with a minus sign. *)
Lemma no_leading_minus (s t r : string) :
  all_digits s = true →
  String.String "-"%char r ≠ s +:+ String.String "."%char t.
Proof.
  intros Hs Heq. destruct s as [|c s]; cbn in *.
  - discriminate Heq.
  - injection Heq as <- _. discriminate Hs.
Qed.

(** The text of [half_with_one_digit d] with its unit, laid out as a sign,
    the digits before the point, and the rest. *)
Lemma half_layout (d : Z) :
  half_with_one_digit d +:+ " Mb/s" =
    (if decide (d < 0) then "-" else "")
      +:+ pretty (Z.abs d `div` 2)
      +:+ String.String "."%char ((if Z.odd d then "5" else "0") +:+ " Mb/s").
Proof. unfold half_with_one_digit. rewrite !append_assoc. reflexivity. Qed.

Lemma half_digits (d : Z) : all_digits (pretty (Z.abs d `div` 2)) = true.
Proof. apply pretty_Z_digits. apply Z.div_pos; lia. Qed.

(** An integer is given by its sign, the half of its absolute value and its
    parity. *)
Lemma sign_half_parity (d1 d2 : Z) :
  (d1 < 0 ↔ d2 < 0) →
  Z.abs d1 `div` 2 = Z.abs d2 `div` 2 →
  Z.odd d1 = Z.odd d2 →
  d1 = d2.
Proof.
  intros Hs Hh Ho.
  pose proof (Z.div_mod (Z.abs d1) 2) as E1.
  pose proof (Z.div_mod (Z.abs d2) 2) as E2.
  rewrite Zmod_odd, odd_abs in E1, E2. rewrite Hh, Ho in E1.
  lia.
Qed.

(** The text of the half determines the integer. *)
Lemma half_with_one_digit_inj (d1 d2 : Z) :
  half_with_one_digit d1 +:+ " Mb/s" = half_with_one_digit d2 +:+ " Mb/s" →
  d1 = d2.
Proof.
  rewrite !half_layout. intros Heq.
  pose proof (half_digits d1) as D1. pose proof (half_digits d2) as D2.
  assert (∀ a b : Z,
            (if Z.odd a then "5" else "0") +:+ " Mb/s"
              = (if Z.odd b then "5" else "0") +:+ " Mb/s" →
            Z.odd a = Z.odd b) as Hpar.
  { intros a b. destruct (Z.odd a), (Z.odd b); cbn; intros H;
      first [reflexivity | discriminate H]. }
  destruct (decide (d1 < 0)) as [N1|N1], (decide (d2 < 0)) as [N2|N2]; cbn in Heq.
  - injection Heq as Heq.
    destruct (split_at_point _ _ _ _ D1 D2 Heq) as [Hp Hd].
    apply sign_half_parity; [tauto|exact (inj pretty _ _ Hp)|exact (Hpar _ _ Hd)].
  - exfalso. exact (no_leading_minus _ _ _ D2 Heq).
  - exfalso. symmetry in Heq. exact (no_leading_minus _ _ _ D1 Heq).
  - destruct (split_at_point _ _ _ _ D1 D2 Heq) as [Hp Hd].
    apply sign_half_parity; [tauto|exact (inj pretty _ _ Hp)|exact (Hpar _ _ Hd)].
Qed.

(** X5: on the integers that float64 holds exactly, different data rates are
    printed differently. *)
Theorem String_distinct (d1 d2 : DataRate) :
  Z.abs d1 <= 2 ^ 53 → Z.abs d2 <= 2 ^ 53 →
  d1 ≠ d2 → String d1 ≠ String d2.
Proof.
  intros H1 H2 Hne Heq. apply Hne.
  rewrite !String_of_rounded in Heq.
  rewrite !float64_to_Z_of_int in Heq by assumption.
  apply half_with_one_digit_inj, Heq.
Qed.

Lemma String_distinct_witness : String 11 ≠ String 12.
Proof.
  apply (String_distinct 11 12); [vm_compute; discriminate..|].
  intros H; discriminate H.
Defined.

(** Beyond that range two rates can share their text. *)
Example String_collision : String (2 ^ 53) = String (2 ^ 53 + 1).
Proof. vm_compute. reflexivity. Qed.

Lemma bit_length_opp (d : Z) : bit_length (- d) = bit_length d.
Proof.
  unfold bit_length. rewrite Z.abs_opp.
  destruct (decide (- d = 0)), (decide (d = 0)); lia.
Qed.

(** The conversion to float64 is odd: it commutes with negation. *)
Lemma float64_of_int_opp (d : Z) :
  float64_of_int (- d) =
    F64 (- f_mant (float64_of_int d)) (f_exp (float64_of_int d)).
Proof.
  unfold float64_of_int. rewrite bit_length_opp.
  destruct (decide (bit_length d <= 53)); cbn [f_mant f_exp]; [reflexivity|].
  rewrite Z.abs_opp, Z.sgn_opp. f_equal. lia.
Qed.

Lemma round_shift_lower (a k : Z) : 0 < k → Z.shiftr a k <= round_shift a k.
Proof.
  intros Hk. unfold round_shift.
  destruct (decide (k <= 0)); [lia|].
  repeat (destruct (decide _)); try lia.
  destruct (Z.even _); lia.
Qed.

(** An integer of [n] binary digits is at least [2 ^ (n - 1)]. *)
Lemma bit_length_lower (d : Z) : d ≠ 0 → 2 ^ (bit_length d - 1) <= Z.abs d.
Proof.
  intros Hd. unfold bit_length. destruct (decide (d = 0)); [contradiction|].
  replace (Z.log2 (Z.abs d) + 1 - 1) with (Z.log2 (Z.abs d)) by lia.
  apply Z.log2_spec. lia.
Qed.

Lemma bit_length_0 : bit_length 0 = 0.
Proof. reflexivity. Qed.

(** A positive integer is converted to a positive float. *)
Lemma float64_of_int_pos (d : Z) : 0 < d → 0 < f_mant (float64_of_int d).
Proof.
  intros Hd. unfold float64_of_int.
  destruct (decide (bit_length d <= 53)) as [|Hn]; cbn [f_mant]; [exact Hd|].
  rewrite Z.sgn_pos, Z.abs_eq by lia.
  assert (0 < Z.shiftr d (bit_length d - 53)); [|
    pose proof (round_shift_lower d (bit_length d - 53)); lia].
  rewrite Z.shiftr_div_pow2 by lia.
  pose proof (bit_length_lower d) as Hl. rewrite Z.abs_eq in Hl by lia.
  apply Z.div_str_pos. split; [apply Z.pow_pos_nonneg; lia|].
  etrans; [|apply Hl; lia].
  apply Z.pow_le_mono_r; lia.
Qed.

(** X6: the text of a negative rate is a minus sign before the text of its
    opposite, whatever the size of the rate. *)
Theorem String_opp (d : DataRate) :
  0 < d → String (- d) = "-" +:+ String d.
Proof.
  intros Hd. pose proof (float64_of_int_pos d Hd) as Hm.
  unfold String, format_f1. rewrite float64_of_int_opp.
  unfold fdiv_two, tenths. cbn [f_mant f_exp]. rewrite Z.abs_opp.
  destruct (decide (- f_mant (float64_of_int d) < 0)); [|lia].
  destruct (decide (f_mant (float64_of_int d) < 0)); [lia|].
  reflexivity.
Qed.

Lemma String_opp_witness : String (- 11) = "-" +:+ String 11.
Proof. apply (String_opp 11). reflexivity. Defined.

(** The float that an integer is converted to lies within the relative
    distance [2 ^ -53] of it. *)
Lemma float64_of_int_close (d : Z) :
  Z.abs (float64_to_Z (float64_of_int d) - d) * 2 ^ 53 <= Z.abs d.
Proof.
  unfold float64_of_int, float64_to_Z.
  destruct (decide (bit_length d <= 53)) as [|Hn]; cbn [f_mant f_exp]; [lia|].
  assert (d ≠ 0) as Hd0 by (intros ->; rewrite bit_length_0 in Hn; lia).
  set (k := bit_length d - 53) in *.
  pose proof (round_shift_nearest (Z.abs d) k ltac:(lia) ltac:(lia)) as Hr.
  pose proof (bit_length_lower d Hd0) as Hl.
  replace (bit_length d - 1) with (k + 52) in Hl by lia.
  rewrite Z.pow_add_r in Hl by lia.
  assert (0 < 2 ^ k) as Hk by (apply Z.pow_pos_nonneg; lia).
  assert (2 ^ 53 = 2 * 2 ^ 52) as E53 by reflexivity.
  set (rs := round_shift (Z.abs d) k) in *.
  assert (Z.abs (Z.sgn d * rs * 2 ^ k - d) = Z.abs (rs * 2 ^ k - Z.abs d)) as ->.
  { destruct (Z.sgn_spec d) as [[? ->]|[[? ->]|[? ->]]]; lia. }
  nia.
Qed.

(** From 2^53 on, the float is an even integer. *)
Lemma float64_of_int_even (d : Z) :
  2 ^ 53 <= Z.abs d → Z.even (float64_to_Z (float64_of_int d)) = true.
Proof.
  intros Hd. destruct (decide (Z.abs d = 2 ^ 53)) as [He|Hne].
  { assert (d = 2 ^ 53 ∨ d = - 2 ^ 53) as [-> | ->] by lia; reflexivity. }
  unfold float64_of_int, float64_to_Z.
  destruct (decide (bit_length d <= 53)) as [Hn|Hn]; cbn [f_mant f_exp].
  - exfalso. assert (d ≠ 0) as Hd0 by lia.
    unfold bit_length in Hn. destruct (decide (d = 0)); [contradiction|].
    assert (Z.abs d < 2 ^ 53); [|lia].
    apply Z.log2_lt_pow2; lia.
  - set (k := bit_length d - 53) in *.
    replace (2 ^ k) with (2 * 2 ^ (k - 1)).
    + rewrite Z.mul_assoc, (Z.mul_comm _ 2), <- Z.mul_assoc, Z.even_mul.
      reflexivity.
    + replace k with (1 + (k - 1)) at 2 by lia.
      rewrite Z.pow_add_r by lia. reflexivity.
Qed.

(** X7: what [String] prints for every [d], also beyond the exact range.  It
    is the half, written with one fractional digit, of an integer [r] that is
    within the relative distance [2 ^ -53] of [d]; [r] is [d] itself up to
    2^53 in absolute value, and from there on [r] is even, so that the digit
    after the point is 0. *)
Theorem String_rounding (d : DataRate) :
  ∃ r : Z,
    String d = half_with_one_digit r +:+ " Mb/s"
    ∧ Z.abs (r - d) * 2 ^ 53 <= Z.abs d
    ∧ (Z.abs d <= 2 ^ 53 → r = d)
    ∧ (2 ^ 53 <= Z.abs d → Z.odd r = false).
Proof.
  exists (float64_to_Z (float64_of_int d)).
  split; [apply String_of_rounded|].
  split; [apply float64_of_int_close|].
  split; [apply float64_to_Z_of_int|].
  intros Hd. rewrite <- Z.negb_even, float64_of_int_even by assumption.
  reflexivity.
Qed.

Lemma String_rounding_witness :
  ∃ r : Z,
    String (2 ^ 53 + 1) = half_with_one_digit r +:+ " Mb/s"
    ∧ Z.abs (r - (2 ^ 53 + 1)) * 2 ^ 53 <= Z.abs (2 ^ 53 + 1)
    ∧ Z.odd r = false.
Proof.
  destruct (String_rounding (2 ^ 53 + 1)) as (r & Hs & Hc & _ & He).
  exists r. split; [exact Hs|]. split; [exact Hc|].
  apply He. vm_compute. discriminate.
Defined.

End RateText.

(** ** Further properties of the MAC packet container *)

Module PacketStore.
Import Packet PacketFacts.

(** X8: parsing leaves the packets that exist alone.  The new packet gets an
    address of its own, and a packet allocated before still encodes to the
    same slice afterwards. *)
Theorem ParseMACPacket_preserves (data : slice) (q : loc) (v : MACPacket) (h : Heap) :
  packets h !! q = Some v →
  ∃ (m : loc) (h' : Heap),
    ParseMACPacket data h = Some ((Some m, nil_error), h')
    ∧ m ≠ q
    ∧ packets h' !! q = Some v
    ∧ Encode (Some q) h' = Some (RawData v, h')
    ∧ bytes_of h' (RawData v) = bytes_of h (RawData v).
Proof.
  intros Hq. eexists _, _. split; [apply ParseMACPacket_returns|].
  assert (fresh (dom (packets h)) ≠ q) as Hne.
  { intros E. pose proof (fresh_packet h) as Hf. rewrite E, Hq in Hf. discriminate. }
  assert (<[fresh (dom (packets h)) := mkMACPacket data]> (packets h) !! q = Some v)
    as Hl by (rewrite lookup_insert_ne by exact Hne; exact Hq).
  split; [exact Hne|]. split; [exact Hl|].
  split; [apply Encode_returns; exact Hl|].
  apply bytes_of_arrays. reflexivity.
Qed.

Lemma ParseMACPacket_preserves_witness :
  ∃ (m : loc) (h' : Heap),
    ParseMACPacket nil_slice sample_packet_heap = Some ((Some m, nil_error), h')
    ∧ m ≠ 3%positive
    ∧ packets h' !! 3%positive = Some (mkMACPacket sample_slice)
    ∧ Encode (Some 3%positive) h' = Some (sample_slice, h')
    ∧ bytes_of h' sample_slice = bytes_of sample_packet_heap sample_slice.
Proof.
  apply (ParseMACPacket_preserves nil_slice 3%positive
           (mkMACPacket sample_slice) sample_packet_heap).
  reflexivity.
Defined.

(** X9: two calls of [ParseMACPacket] return two different packets, each of
    which encodes to the slice it was made from, whether or not the two slices
    are the same; the arrays are as before. *)
Theorem ParseMACPacket_twice (d1 d2 : slice) (h : Heap) :
  ∃ (m1 m2 : loc) (h' : Heap),
    (r1 ← ParseMACPacket d1; r2 ← ParseMACPacket d2;
     a ← Encode r1.1; b ← Encode r2.1; mret (r1.1, r2.1, a, b)) h
      = Some ((Some m1, Some m2, d1, d2), h')
    ∧ m1 ≠ m2
    ∧ arrays h' = arrays h.
Proof.
  set (m1 := fresh (dom (packets h))).
  set (h1 := mkHeap (arrays h) (<[m1 := mkMACPacket d1]> (packets h))).
  set (m2 := fresh (dom (packets h1))).
  set (h2 := mkHeap (arrays h1) (<[m2 := mkMACPacket d2]> (packets h1))).
  assert (packets h1 !! m1 = Some (mkMACPacket d1)) as H1
    by apply lookup_insert_eq.
  assert (m2 ≠ m1) as Hne.
  { intros E. pose proof (fresh_packet h1) as Hf. fold m2 in Hf.
    rewrite E, H1 in Hf. discriminate. }
  exists m1, m2, h2. split; [|split; [congruence|reflexivity]].
  rewrite (bind_returns _ _ _ _ _ (ParseMACPacket_returns d1 h)). fold m1 h1.
  rewrite (bind_returns _ _ _ _ _ (ParseMACPacket_returns d2 h1)). fold m2 h2.
  cbn [fst].
  rewrite (bind_returns _ _ h2 h2 d1).
  2: { apply (Encode_returns m1 (mkMACPacket d1)). cbn [packets h2].
       rewrite lookup_insert_ne by exact Hne. exact H1. }
  rewrite (bind_returns _ _ h2 h2 d2).
  2: { apply (Encode_returns m2 (mkMACPacket d2)). apply lookup_insert_eq. }
  reflexivity.
Qed.

(** X10: when [Encode] returns and when it panics.  It returns a slice exactly
    when its receiver points to a packet holding that slice, and then the
    store is unchanged; on a nil receiver it panics. *)
Theorem Encode_returns_iff (m : option loc) (s : slice) (h h' : Heap) :
  (Encode m h = Some (s, h')
     ↔ h' = h ∧ ∃ p : loc, m = Some p ∧ packets h !! p = Some (mkMACPacket s))
  ∧ Encode None h = None.
Proof.
  split; [|reflexivity]. split.
  - unfold Encode, mbind, go_bind, load_MACPacket, mret, go_ret.
    destruct m as [p|]; [|discriminate].
    destruct (packets h !! p) as [[raw]|] eqn:Hp; [|discriminate].
    cbn [RawData]. intros [= <- <-]. split; [reflexivity|]. exists p. auto.
  - intros (-> & p & -> & Hp). apply (Encode_returns p (mkMACPacket s)), Hp.
Qed.

End PacketStore.
